(** * Sequential model of the lock-free ring buffer [RingBuffer<T, N>]
    (src/src/lib.rs).

    The three atomic counters are modelled as unbounded naturals; the
    storage [data : [UnsafeCell<MaybeUninit<T>>; N]] is a list of
    [option T] of length [N], where [None] is an uninitialised slot and
    [Some x] a slot holding the bits of [x].  Every operation runs on one
    thread, so each [compare_exchange_weak] retry loop on a counter that
    nobody else touches ends with the exchange succeeding; the publish loop
    on [end] spins forever when [end] differs from the claimed place, which
    is the [Hang] outcome.  Array indexing and [%] by zero panic in Rust,
    which is the [Panic] outcome; [assume_init] on an uninitialised slot is
    the [UB] outcome. *)

From stdpp Require Import base list.
From Stdlib Require Import Lia.

(** [Result<A, E>] *)
Inductive Result (A E : Type) : Type :=
| Ok (a : A)
| Err (e : E).
Arguments Ok {A E} a.
Arguments Err {A E} e.

Section RingBufferModel.

Context {T : Type}.
(** the const generic capacity [N] *)
Variable N : nat.

(** [struct RingBuffer<T, const N: usize>] *)
Record RingBuffer : Type := mkRingBuffer {
  start : nat;
  end_ : nat;
  reserved : nat;
  data : list (option T);
}.

(** Outcome of running one method call on one thread. *)
Inductive Outcome (A : Type) : Type :=
| Done (a : A) (rb : RingBuffer)
| Panic
| Hang
| UB.
Arguments Done {A} a rb.
Arguments Panic {A}.
Arguments Hang {A}.
Arguments UB {A}.

(** [RingBuffer::new]: counters at zero, storage uninitialised. *)
Definition new : RingBuffer :=
  {| start := 0; end_ := 0; reserved := 0; data := repeat None N |}.

(** [place % N]: a remainder by zero panics. *)
Definition rem (place : nat) : option nat :=
  if decide (N = 0) then None else Some (place mod N).

(** [try_insert]: the reservation loop (load [reserved], load [start],
    full check, CAS on [reserved]), the volatile write of the value into
    [data[place % N]], then the publish loop CAS on [end] from [place]
    to [place + 1]. *)
Definition try_insert (v : T) (self : RingBuffer) : Outcome (Result unit T) :=
  let reserved0 := reserved self in
  let start0 := start self in
  if decide (reserved0 = start0 + N) then Done (Err v) self
  else
    let place := reserved0 in
    let self1 := {| start := start self; end_ := end_ self;
                    reserved := reserved0 + 1; data := data self |} in
    match rem place with
    | None => Panic
    | Some index =>
        match data self1 !! index with
        | None => Panic
        | Some _ =>
            let self2 := {| start := start self1; end_ := end_ self1;
                            reserved := reserved self1;
                            data := <[index := Some v]> (data self1) |} in
            if decide (end_ self2 = place) then
              Done (Ok tt) {| start := start self2; end_ := place + 1;
                              reserved := reserved self2; data := data self2 |}
            else Hang
        end
    end.

(** [try_get]: load [start] and [end]; if equal return [None]; otherwise
    volatile-read [data[start % N]], CAS [start] to [start + 1], and
    [assume_init] the value read. The slot is left as it is. *)
Definition try_get (self : RingBuffer) : Outcome (option T) :=
  let start0 := start self in
  let end0 := end_ self in
  if decide (start0 = end0) then Done None self
  else
    match rem start0 with
    | None => Panic
    | Some start_index =>
        match data self !! start_index with
        | None => Panic
        | Some val_uninit =>
            let self1 := {| start := start0 + 1; end_ := end_ self;
                            reserved := reserved self; data := data self |} in
            match val_uninit with
            | Some x => Done (Some x) self1
            | None => UB
            end
        end
    end.

(** A single-threaded client program: a sequence of method calls. *)
Inductive Op : Type :=
| Insert (v : T)
| Get.

Inductive Out : Type :=
| Inserted (r : Result unit T)
| Got (o : option T).

Definition step (op : Op) (self : RingBuffer) : Outcome Out :=
  match op with
  | Insert v =>
      match try_insert v self with
      | Done r self' => Done (Inserted r) self'
      | Panic => Panic | Hang => Hang | UB => UB
      end
  | Get =>
      match try_get self with
      | Done o self' => Done (Got o) self'
      | Panic => Panic | Hang => Hang | UB => UB
      end
  end.

Fixpoint run (ops : list Op) (self : RingBuffer) : Outcome (list Out) :=
  match ops with
  | [] => Done [] self
  | op :: ops' =>
      match step op self with
      | Done o self' =>
          match run ops' self' with
          | Done os self'' => Done (o :: os) self''
          | Panic => Panic | Hang => Hang | UB => UB
          end
      | Panic => Panic | Hang => Hang | UB => UB
      end
  end.

(** States reachable from [new] by sequential method calls. *)
Inductive reachable : RingBuffer -> Prop :=
| reach_new : reachable new
| reach_insert self v r self' :
    reachable self -> try_insert v self = Done r self' -> reachable self'
| reach_get self o self' :
    reachable self -> try_get self = Done o self' -> reachable self'.

(** The element stored at logical position [p], if its slot is initialised. *)
Definition slot (self : RingBuffer) (p : nat) : option T :=
  match data self !! (p mod N) with
  | Some (Some x) => Some x
  | _ => None
  end.

(** The logical contents: the elements at positions [start .. end). *)
Definition contents (self : RingBuffer) : list T :=
  omap (slot self) (seq (start self) (end_ self - start self)).

End RingBufferModel.

Arguments Done {T A} a rb.
Arguments Panic {T A}.
Arguments Hang {T A}.
Arguments UB {T A}.

(** * Invariant of sequential executions *)

Section Invariant.

Context {T : Type}.
Variable N : nat.

Implicit Types self : @RingBuffer T.

(** Counters ordered and within capacity, storage of size [N], and every
    position in [start .. end) stored in an initialised slot. *)
Definition Inv self : Prop :=
  start self <= end_ self /\ end_ self = reserved self /\
  reserved self <= start self + N /\ length (data self) = N /\
  forall p, start self <= p < end_ self ->
    exists x, data self !! (p mod N) = Some (Some x).

Lemma mod_distinct p q :
  0 < N -> p < q < p + N -> p mod N <> q mod N.
Proof.
  intros HN Hpq Heq.
  pose proof (Nat.div_mod_eq p N) as Hp.
  pose proof (Nat.div_mod_eq q N) as Hq.
  assert (p / N < q / N) by nia.
  nia.
Qed.

Lemma omap_seq_ext {A} (f g : nat -> option A) a k :
  (forall p, a <= p < a + k -> f p = g p) ->
  omap f (seq a k) = omap g (seq a k).
Proof.
  revert a; induction k as [|k IH]; intros a H; [done|].
  cbn. rewrite (H a) by lia. rewrite (IH (S a)) by (intros; apply H; lia).
  done.
Qed.

Lemma omap_seq_length {A} (f : nat -> option A) a k :
  (forall p, a <= p < a + k -> is_Some (f p)) ->
  length (omap f (seq a k)) = k.
Proof.
  revert a; induction k as [|k IH]; intros a H; [done|].
  cbn. destruct (H a) as [x Hx]; [lia|]. rewrite Hx. cbn.
  rewrite IH; [done|]. intros; apply H; lia.
Qed.

Lemma slot_some self p :
  Inv self -> start self <= p < end_ self -> exists x, slot N self p = Some x.
Proof.
  intros (_ & _ & _ & _ & Hs) Hp. destruct (Hs p Hp) as [x Hx].
  exists x. unfold slot. rewrite Hx. done.
Qed.

Lemma contents_length self :
  Inv self -> length (contents N self) = end_ self - start self.
Proof.
  intros HI. unfold contents. apply omap_seq_length.
  intros p Hp. destruct (slot_some self p HI) as [x Hx]; [lia|].
  rewrite Hx. eexists; done.
Qed.

Lemma inv_new : Inv (new N).
Proof.
  unfold Inv, new; cbn. split_and!; try lia.
  apply repeat_length.
Qed.

Lemma try_insert_full v self :
  reserved self = start self + N -> try_insert N v self = Done (Err v) self.
Proof.
  intros H. unfold try_insert. rewrite decide_True by done. done.
Qed.

Lemma try_insert_room v self :
  Inv self -> reserved self <> start self + N ->
  exists self', try_insert N v self = Done (Ok tt) self' /\ Inv self' /\
    contents N self' = contents N self ++ [v] /\
    start self' = start self /\ end_ self' = S (end_ self) /\
    reserved self' = S (reserved self) /\
    data self' = <[reserved self mod N := Some v]> (data self).
Proof.
  intros HI Hroom. pose proof HI as (H1 & H2 & H3 & H4 & H5).
  assert (HN : 0 < N) by lia.
  assert (Hlt : reserved self mod N < length (data self))
    by (rewrite H4; apply Nat.mod_upper_bound; lia).
  destruct (lookup_lt_is_Some_2 (data self) _ Hlt) as [c Hc].
  unfold try_insert, rem. rewrite decide_False by done.
  rewrite decide_False by lia. cbn. rewrite Hc.
  rewrite decide_True by done.
  eexists; split; [reflexivity|]. cbn.
  assert (Hslot : forall p, start self <= p < end_ self ->
            p mod N <> reserved self mod N)
    by (intros p Hp; apply mod_distinct; lia).
  split; [|split; [|repeat split; try lia]].
  - unfold Inv; cbn. repeat split; try lia.
    + rewrite length_insert. done.
    + intros p Hp. destruct (decide (p = reserved self)) as [->|Hne].
      * exists v. apply list_lookup_insert_eq. done.
      * rewrite list_lookup_insert_ne by (apply not_eq_sym, Hslot; lia).
        apply H5. lia.
  - unfold contents; cbn.
    replace (reserved self + 1 - start self)
      with ((end_ self - start self) + 1) by lia.
    rewrite seq_app, omap_app. f_equal.
    + apply omap_seq_ext. intros p Hp. unfold slot; cbn.
      rewrite list_lookup_insert_ne by (apply not_eq_sym, Hslot; lia).
      done.
    + replace (start self + (end_ self - start self)) with (reserved self)
        by lia.
      cbn. unfold slot; cbn. rewrite list_lookup_insert_eq by done. done.
Qed.


Lemma try_get_empty self :
  start self = end_ self -> try_get N self = Done None self.
Proof.
  intros H. unfold try_get. rewrite decide_True by done. done.
Qed.

Lemma try_get_nonempty self :
  Inv self -> start self <> end_ self ->
  exists x xs self', contents N self = x :: xs /\
    data self !! (start self mod N) = Some (Some x) /\
    try_get N self = Done (Some x) self' /\ Inv self' /\
    contents N self' = xs /\
    start self' = S (start self) /\ end_ self' = end_ self /\
    reserved self' = reserved self /\ data self' = data self.
Proof.
  intros HI Hne. pose proof HI as (H1 & H2 & H3 & H4 & H5).
  assert (HN : 0 < N) by lia.
  destruct (H5 (start self)) as [x Hx]; [lia|].
  exists x, (omap (slot N self) (seq (S (start self)) (end_ self - S (start self)))).
  eexists. split; [|split; [done|split; [|split; [|split]]]].
  - unfold contents. replace (end_ self - start self)
      with (S (end_ self - S (start self))) by lia.
    cbn. unfold slot at 1. rewrite Hx. done.
  - unfold try_get, rem. rewrite decide_False by done.
    rewrite decide_False by lia. rewrite Hx. reflexivity.
  - unfold Inv; cbn. split_and!; try lia. intros p Hp. apply H5. lia.
  - unfold contents; cbn. replace (start self + 1) with (S (start self)) by lia.
    apply omap_seq_ext. intros p Hp. unfold slot; cbn. done.
  - cbn. split_and!; try lia; done.
Qed.

Lemma try_insert_inv v self r self' :
  Inv self -> try_insert N v self = Done r self' -> Inv self'.
Proof.
  intros HI Hins. destruct (decide (reserved self = start self + N)) as [Hf|Hf].
  - rewrite try_insert_full in Hins by done. congruence.
  - destruct (try_insert_room v self HI Hf) as (self'' & Heq & HI' & _).
    rewrite Heq in Hins. congruence.
Qed.

Lemma try_get_inv self o self' :
  Inv self -> try_get N self = Done o self' -> Inv self'.
Proof.
  intros HI Hget. destruct (decide (start self = end_ self)) as [He|He].
  - rewrite try_get_empty in Hget by done. congruence.
  - destruct (try_get_nonempty self HI He)
      as (x & xs & self'' & _ & _ & Heq & HI' & _).
    rewrite Heq in Hget. congruence.
Qed.

Lemma reachable_inv self : reachable N self -> Inv self.
Proof.
  induction 1 as [|self v r self' _ IH Hins|self o self' _ IH Hget].
  - apply inv_new.
  - eapply try_insert_inv; eauto.
  - eapply try_get_inv; eauto.
Qed.

Lemma run_app ops1 ops2 self os1 self1 :
  run N ops1 self = Done os1 self1 ->
  run N (ops1 ++ ops2) self =
    match run N ops2 self1 with
    | Done os2 self2 => Done (os1 ++ os2) self2
    | Panic => Panic | Hang => Hang | UB => UB
    end.
Proof.
  revert self os1; induction ops1 as [|op ops1 IH]; intros self os1 Hrun.
  - cbn in Hrun. injection Hrun as <- <-. cbn.
    destruct (run N ops2 self); done.
  - cbn in Hrun |- *. destruct (step N op self) as [o self'| | |]; try done.
    destruct (run N ops1 self') as [os self''| | |] eqn:Hr; try done.
    injection Hrun as <- <-. rewrite (IH self' os Hr).
    destruct (run N ops2 self''); done.
Qed.

(** Inserting a list into a buffer with enough room. *)
Lemma run_inserts xs self :
  Inv self -> end_ self - start self + length xs <= N ->
  exists self', run N (map Insert xs) self =
      Done (map (fun _ => Inserted (Ok tt)) xs) self' /\
    Inv self' /\ contents N self' = contents N self ++ xs /\
    start self' = start self /\ reserved self' = reserved self + length xs.
Proof.
  revert self; induction xs as [|v xs IH]; intros self HI Hroom.
  - exists self. cbn. rewrite app_nil_r. split_and!; try done; lia.
  - pose proof HI as (H1 & H2 & H3 & H4 & H5). cbn in Hroom.
    destruct (try_insert_room v self HI ltac:(lia))
      as (self1 & Hins & HI1 & Hc1 & Hs1 & He1 & Hr1 & _).
    destruct (IH self1 HI1 ltac:(lia))
      as (self2 & Hrun & HI2 & Hc2 & Hs2 & Hr2).
    exists self2. cbn. unfold step. rewrite Hins, Hrun.
    split_and!; try done; try lia.
    rewrite Hc2, Hc1, <- app_assoc. done.
Qed.

(** Removing [length xs] elements from a buffer whose contents start with [xs]. *)
Lemma run_gets xs zs self :
  Inv self -> contents N self = xs ++ zs ->
  exists self', run N (repeat Get (length xs)) self =
      Done (map (fun x => Got (Some x)) xs) self' /\
    Inv self' /\ contents N self' = zs.
Proof.
  revert self; induction xs as [|x xs IH]; intros self HI Hc.
  - exists self. done.
  - assert (Hne : start self <> end_ self).
    { intros He. pose proof (contents_length self HI) as Hl.
      rewrite Hc in Hl. cbn in Hl. lia. }
    destruct (try_get_nonempty self HI Hne)
      as (y & ys & self1 & Hc1 & _ & Hget & HI1 & Hc1' & _).
    rewrite Hc in Hc1. injection Hc1 as <- Hys.
    destruct (IH self1 HI1 ltac:(congruence)) as (self2 & Hrun & HI2 & Hc2).
    exists self2. cbn. unfold step. rewrite Hget, Hrun. done.
Qed.

Lemma step_total op self :
  Inv self -> exists o self', step N op self = Done o self' /\ Inv self'.
Proof.
  intros HI. destruct op as [v|]; cbn.
  - destruct (decide (reserved self = start self + N)) as [Hf|Hf].
    + rewrite try_insert_full by done. eauto.
    + destruct (try_insert_room v self HI Hf) as (self' & -> & HI' & _). eauto.
  - destruct (decide (start self = end_ self)) as [He|He].
    + rewrite try_get_empty by done. eauto.
    + destruct (try_get_nonempty self HI He)
        as (x & xs & self' & _ & _ & -> & HI' & _). eauto.
Qed.

Lemma run_total ops self :
  Inv self -> exists os self', run N ops self = Done os self' /\ Inv self'.
Proof.
  revert self; induction ops as [|op ops IH]; intros self HI; [eauto|].
  destruct (step_total op self HI) as (o & self1 & Hstep & HI1).
  destruct (IH self1 HI1) as (os & self2 & Hrun & HI2).
  exists (o :: os), self2. cbn. rewrite Hstep, Hrun. done.
Qed.

End Invariant.

(** * Destruction

    [RingBuffer] has no [impl Drop]; dropping it runs the drop glue of its
    fields.  [AtomicUsize] owns nothing, [UnsafeCell<U>] drops its [U], and
    [MaybeUninit<T>] never runs the destructor of a [T] it may hold.  The
    model returns the elements whose destructor runs. *)

Section Destruction.

Context {T : Type}.

Definition drop_AtomicUsize (n : nat) : list T := [].

Definition drop_MaybeUninit (c : option T) : list T := [].

Definition drop_UnsafeCell (c : option T) : list T := drop_MaybeUninit c.

Definition drop_RingBuffer (self : @RingBuffer T) : list T :=
  drop_AtomicUsize (start self) ++ drop_AtomicUsize (end_ self) ++
  drop_AtomicUsize (reserved self) ++ concat (map drop_UnsafeCell (data self)).

End Destruction.

(** * Reference model: a bounded FIFO queue

    The queue behaviour the buffer implements, as a list of elements: an
    insertion succeeds and appends while fewer than [N] elements are held,
    otherwise it hands the value back; a removal takes the head. *)

Section BoundedFifo.

Context {T : Type}.
Variable N : nat.

Definition fifo_step (op : @Op T) (q : list T) : @Out T * list T :=
  match op with
  | Insert v =>
      if decide (length q < N) then (Inserted (Ok tt), q ++ [v])
      else (Inserted (Err v), q)
  | Get =>
      match q with
      | [] => (Got None, [])
      | x :: q' => (Got (Some x), q')
      end
  end.

Fixpoint fifo_run (ops : list (@Op T)) (q : list T) : list (@Out T) * list T :=
  match ops with
  | [] => ([], q)
  | op :: ops' =>
      let '(o, q1) := fifo_step op q in
      let '(os, q2) := fifo_run ops' q1 in
      (o :: os, q2)
  end.

(** The values a sequence of calls handed to the buffer: those of the
    [try_insert] calls that returned [Ok]. *)
Fixpoint accepted (ops : list (@Op T)) (os : list (@Out T)) : list T :=
  match ops, os with
  | Insert v :: ops', Inserted (Ok _) :: os' => v :: accepted ops' os'
  | _ :: ops', _ :: os' => accepted ops' os'
  | _, _ => []
  end.

(** The values a sequence of calls received from [try_get]. *)
Fixpoint delivered (os : list (@Out T)) : list T :=
  match os with
  | Got (Some x) :: os' => x :: delivered os'
  | _ :: os' => delivered os'
  | [] => []
  end.

End BoundedFifo.

(** * Claims *)

Section Claims.

Context {T : Type}.
Variable N : nat.

(** C1: for a list [xs] of at most [N] values, inserting them one after the
    other into a new buffer succeeds every time, and then [length xs] calls
    of [try_get] return exactly [xs], in insertion order. *)
Theorem fifo_single_thread (xs : list T) (Hlen : length xs <= N) :
  exists self, run N (map Insert xs ++ repeat Get (length xs)) (new N) =
    Done (map (fun _ => Inserted (Ok tt)) xs ++ map (fun x => Got (Some x)) xs)
      self.
Proof.
  destruct (run_inserts N xs (new N) (inv_new N) ltac:(cbn; lia))
    as (self1 & Hrun1 & HI1 & Hc1 & _).
  cbn in Hc1.
  destruct (run_gets N xs [] self1 HI1 ltac:(rewrite Hc1, app_nil_r; done))
    as (self2 & Hrun2 & _).
  exists self2. rewrite (run_app N _ _ _ _ _ Hrun1), Hrun2. done.
Qed.

(** C2: on a new buffer, the first [N] insertions all succeed, leaving
    [reserved = start + N]; from then on, as in any state with
    [reserved = start + N], [try_insert v] returns [Err v] and leaves the
    whole state (counters and storage) unchanged. *)
Theorem insert_capacity_boundary (xs : list T) (v : T) (Hlen : length xs = N) :
  (exists self, run N (map Insert xs) (new N) =
      Done (map (fun _ => Inserted (Ok tt)) xs) self /\
    reserved self = start self + N /\
    try_insert N v self = Done (Err v) self) /\
  (forall self : @RingBuffer T, reserved self = start self + N ->
    try_insert N v self = Done (Err v) self).
Proof.
  split.
  - destruct (run_inserts N xs (new N) (inv_new N) ltac:(cbn; lia))
      as (self1 & Hrun1 & _ & _ & Hs & Hr).
    exists self1. cbn in Hs, Hr.
    split_and!; [done|lia|apply try_insert_full; lia].
  - intros self Hf. apply try_insert_full. done.
Qed.

(** C3: every sequence of [try_insert]/[try_get] calls on a new buffer runs
    to completion (no panic, hang or undefined behaviour) and ends in a state
    with [start <= end <= reserved] and [reserved - start <= N]. *)
Theorem counters_invariant (ops : list (@Op T)) :
  exists os self, run N ops (new N) = Done os self /\
    start self <= end_ self <= reserved self /\
    reserved self - start self <= N.
Proof.
  destruct (run_total N ops (new N) (inv_new N))
    as (os & self & Hrun & (H1 & H2 & H3 & _)).
  exists os, self. split_and!; try done; lia.
Qed.

(** C5: in a reachable state holding [N] elements ([reserved = start + N],
    [N >= 1]), [try_get] returns an element; afterwards one [try_insert]
    returns [Ok] and a second one, with no removal in between, fails. *)
Theorem get_then_one_insert (self : @RingBuffer T) (Hr : reachable N self)
    (HN : 0 < N) (Hfull : reserved self = start self + N) :
  exists x self1, try_get N self = Done (Some x) self1 /\
    forall v w, exists self2,
      try_insert N v self1 = Done (Ok tt) self2 /\
      try_insert N w self2 = Done (Err w) self2.
Proof.
  pose proof (reachable_inv N self Hr) as HI.
  pose proof HI as (H1 & H2 & H3 & _).
  destruct (try_get_nonempty N self HI ltac:(lia))
    as (x & xs & self1 & _ & _ & Hget & HI1 & _ & Hs1 & He1 & Hr1 & _).
  exists x, self1. split; [done|]. intros v w.
  destruct (try_insert_room N v self1 HI1 ltac:(lia))
    as (self2 & Hins & _ & _ & Hs2 & _ & Hr2 & _).
  exists self2. split; [done|]. apply try_insert_full. lia.
Qed.

(** C6: for [N >= 1] and any value [v], [try_insert v] on a new buffer
    succeeds, the next [try_get] returns [Some v], and a further [try_get]
    returns [None] leaving the state unchanged. *)
Theorem insert_get_roundtrip (v : T) (HN : 0 < N) :
  exists self1 self2, try_insert N v (new N) = Done (Ok tt) self1 /\
    try_get N self1 = Done (Some v) self2 /\
    try_get N self2 = Done None self2.
Proof.
  destruct (try_insert_room N v (new N) (inv_new N) ltac:(cbn; lia))
    as (self1 & Hins & HI1 & Hc1 & Hs1 & He1 & _).
  cbn in Hs1, He1.
  destruct (try_get_nonempty N self1 HI1 ltac:(lia))
    as (x & xs & self2 & Hc & _ & Hget & HI2 & Hc2 & Hs2 & He2 & _).
  assert (Hcv : contents N self1 = [v]).
  { rewrite Hc1. unfold contents; cbn. done. }
  rewrite Hcv in Hc. injection Hc as <- <-.
  exists self1, self2. split_and!; [done|done|].
  apply try_get_empty. lia.
Qed.

(** C7: in a reachable state, [try_get] returns [None] exactly when
    [start = end], and then leaves the state unchanged; when
    [start <> end] it returns [Some] element. *)
Theorem try_get_none_iff_empty (self : @RingBuffer T) (Hr : reachable N self) :
  (forall o self', try_get N self = Done o self' ->
     (o = None <-> start self = end_ self)) /\
  (start self = end_ self -> try_get N self = Done None self) /\
  (start self <> end_ self -> exists x self', try_get N self = Done (Some x) self').
Proof.
  pose proof (reachable_inv N self Hr) as HI.
  split_and!.
  - intros o self' Hget. destruct (decide (start self = end_ self)) as [He|He].
    + rewrite try_get_empty in Hget by done. injection Hget as <- _. tauto.
    + destruct (try_get_nonempty N self HI He)
        as (x & xs & self'' & _ & _ & Hget' & _).
      rewrite Hget' in Hget. injection Hget as <- _. split; [done|tauto].
  - apply try_get_empty.
  - intros He. destruct (try_get_nonempty N self HI He)
      as (x & xs & self'' & _ & _ & Hget' & _). eauto.
Qed.

(** C8: in a reachable state every position in [start .. end) is stored in
    an initialised slot; so when [start <> end] the slot [start % N] read by
    [try_get] is initialised and [try_get] reaches neither the
    [assume_init]-on-uninitialised case nor a panic. *)
Theorem try_get_reads_initialised (self : @RingBuffer T) (Hr : reachable N self) :
  (forall p, start self <= p < end_ self ->
     exists x, data self !! (p mod N) = Some (Some x)) /\
  (start self <> end_ self ->
     exists x, data self !! (start self mod N) = Some (Some x) /\
       try_get N self <> UB /\ try_get N self <> Panic).
Proof.
  pose proof (reachable_inv N self Hr) as HI.
  split; [apply HI|]. intros He.
  destruct (try_get_nonempty N self HI He)
    as (x & xs & self' & _ & Hx & Hget & _).
  exists x. rewrite Hget. done.
Qed.

(** C9 (amended): destroying a [RingBuffer] runs the destructor of none of
    its elements, whatever its state: there is no [Drop] impl and the
    [MaybeUninit] slots never drop what they hold, so the elements still in
    [start .. end) are leaked. *)
Theorem drop_releases_nothing (self : @RingBuffer T) :
  drop_RingBuffer self = [].
Proof.
  unfold drop_RingBuffer, drop_AtomicUsize; cbn.
  induction (data self) as [|c l IH]; [done|]. cbn. exact IH.
Qed.

End Claims.

(** The unit test [single_thread_overflow] of src/src/lib.rs. *)
Example single_thread_overflow :
  exists self,
    run 4 [Insert 1; Insert 2; Insert 3; Get; Get; Get;
           Insert 4; Insert 5; Get; Get] (new 4) =
    Done [Inserted (Ok tt); Inserted (Ok tt); Inserted (Ok tt);
          Got (Some 1); Got (Some 2); Got (Some 3);
          Inserted (Ok tt); Inserted (Ok tt); Got (Some 4); Got (Some 5)] self.
Proof. eexists. vm_compute. reflexivity. Qed.

(** * Witnesses *)

Lemma fifo_single_thread_witness :
  length [10; 20] <= 2 /\
  exists self, run 2 (map Insert [10; 20] ++ repeat Get (length [10; 20]))
      (new 2) =
    Done (map (fun _ => Inserted (Ok tt)) [10; 20] ++
          map (fun x => Got (Some x)) [10; 20]) self.
Proof.
  split; [cbn; lia|]. apply (fifo_single_thread 2 [10; 20]). cbn; lia.
Defined.

Lemma insert_capacity_boundary_witness :
  length [1; 2] = 2 /\
  ((exists self, run 2 (map Insert [1; 2]) (new 2) =
       Done (map (fun _ => Inserted (Ok tt)) [1; 2]) self /\
     reserved self = start self + 2 /\
     try_insert 2 3 self = Done (Err 3) self) /\
   (forall self : @RingBuffer nat, reserved self = start self + 2 ->
     try_insert 2 3 self = Done (Err 3) self)).
Proof.
  split; [reflexivity|]. apply (insert_capacity_boundary 2 [1; 2] 3).
  reflexivity.
Defined.

(** The state reached from [RingBuffer::<_, 1>::new()] by [try_insert(5)]. *)
Definition after_insert_5 : @RingBuffer nat :=
  {| start := 0; end_ := 1; reserved := 1; data := [Some 5] |}.

Lemma after_insert_5_reachable : reachable 1 after_insert_5.
Proof.
  apply (reach_insert 1 (new 1) 5 (Ok tt)); [apply reach_new|reflexivity].
Qed.

Lemma get_then_one_insert_witness :
  reachable 1 after_insert_5 /\ 0 < 1 /\
  reserved after_insert_5 = start after_insert_5 + 1 /\
  exists x self1, try_get 1 after_insert_5 = Done (Some x) self1 /\
    forall v w, exists self2,
      try_insert 1 v self1 = Done (Ok tt) self2 /\
      try_insert 1 w self2 = Done (Err w) self2.
Proof.
  split_and!; [apply after_insert_5_reachable|lia|reflexivity|].
  apply (get_then_one_insert 1 after_insert_5);
    [apply after_insert_5_reachable|lia|reflexivity].
Defined.

Lemma insert_get_roundtrip_witness :
  0 < 3 /\
  exists self1 self2, try_insert 3 7 (new 3) = Done (Ok tt) self1 /\
    try_get 3 self1 = Done (Some 7) self2 /\
    try_get 3 self2 = Done None self2.
Proof.
  split; [lia|]. apply (insert_get_roundtrip 3 7). lia.
Defined.

Lemma try_get_none_iff_empty_witness :
  reachable 1 after_insert_5 /\
  (forall o self', try_get 1 after_insert_5 = Done o self' ->
     (o = None <-> start after_insert_5 = end_ after_insert_5)) /\
  (start after_insert_5 = end_ after_insert_5 ->
     try_get 1 after_insert_5 = Done None after_insert_5) /\
  (start after_insert_5 <> end_ after_insert_5 ->
     exists x self', try_get 1 after_insert_5 = Done (Some x) self').
Proof.
  split; [apply after_insert_5_reachable|].
  apply (try_get_none_iff_empty 1 after_insert_5).
  apply after_insert_5_reachable.
Defined.

Lemma try_get_reads_initialised_witness :
  reachable 1 after_insert_5 /\
  (forall p, start after_insert_5 <= p < end_ after_insert_5 ->
     exists x, data after_insert_5 !! (p mod 1) = Some (Some x)) /\
  (start after_insert_5 <> end_ after_insert_5 ->
     exists x, data after_insert_5 !! (start after_insert_5 mod 1) = Some (Some x) /\
       try_get 1 after_insert_5 <> UB /\ try_get 1 after_insert_5 <> Panic).
Proof.
  split; [apply after_insert_5_reachable|].
  apply (try_get_reads_initialised 1 after_insert_5).
  apply after_insert_5_reachable.
Defined.

(** * Counterexamples *)

(** C9 as stated fails: after [try_insert(5)] on a buffer of capacity 1 the
    element 5 is still queued, yet dropping the buffer releases nothing. *)
Lemma drop_releases_queued_counterexample :
  ~ (forall self : @RingBuffer nat, reachable 1 self ->
       forall x, In x (contents 1 self) -> In x (drop_RingBuffer self)).
Proof.
  intros H.
  pose proof (H after_insert_5 after_insert_5_reachable 5 ltac:(cbn; auto))
    as Hin.
  cbn in Hin. exact Hin.
Qed.

(** * Further properties of [try_insert], [try_get] and [new] *)

Section Extras.

Context {T : Type}.
Variable N : nat.

Lemma inv_full_iff (self : @RingBuffer T) :
  Inv N self ->
  (reserved self = start self + N <-> length (contents N self) = N).
Proof.
  intros HI. pose proof (contents_length N self HI).
  destruct HI as (H1 & H2 & H3 & _). lia.
Qed.

Lemma step_refines op (self : @RingBuffer T) :
  Inv N self ->
  exists self', step N op self = Done (fifo_step N op (contents N self)).1 self' /\
    Inv N self' /\ contents N self' = (fifo_step N op (contents N self)).2.
Proof.
  intros HI. pose proof (contents_length N self HI) as Hl.
  pose proof HI as (H1 & H2 & H3 & _).
  destruct op as [v|]; unfold step, fifo_step.
  - destruct (decide (length (contents N self) < N)) as [Hlt|Hge].
    + cbn.
      destruct (try_insert_room N v self HI ltac:(lia))
        as (self' & -> & HI' & Hc & _). eauto.
    + cbn. rewrite try_insert_full by lia. eauto.
  - destruct (decide (start self = end_ self)) as [He|He].
    + rewrite try_get_empty by done.
      assert (Hc : contents N self = []) by (apply length_zero_iff_nil; lia).
      rewrite Hc. cbn. exists self. done.
    + destruct (try_get_nonempty N self HI He)
        as (x & xs & self' & -> & _ & -> & HI' & Hc' & _). cbn. eauto.
Qed.

Lemma run_refines ops (self : @RingBuffer T) :
  Inv N self ->
  exists self', run N ops self = Done (fifo_run N ops (contents N self)).1 self' /\
    Inv N self' /\ contents N self' = (fifo_run N ops (contents N self)).2.
Proof.
  revert self; induction ops as [|op ops IH]; intros self HI; [cbn; eauto|].
  destruct (step_refines op self HI) as (self1 & Hstep & HI1 & Hc1).
  destruct (IH self1 HI1) as (self2 & Hrun & HI2 & Hc2).
  exists self2. cbn. rewrite Hstep, Hrun.
  destruct (fifo_step N op (contents N self)) as [o q1] eqn:Hfs.
  cbn in Hc1 |- *. rewrite <- Hc1.
  destruct (fifo_run N ops (contents N self1)) as [os q2]. cbn in *. eauto.
Qed.

Lemma run_counters_mono ops (self self' : @RingBuffer T) os :
  Inv N self -> run N ops self = Done os self' ->
  start self <= start self' /\ end_ self <= end_ self' /\
  reserved self <= reserved self'.
Proof.
  revert self os; induction ops as [|op ops IH]; intros self os HI Hrun.
  - cbn in Hrun. injection Hrun as _ <-. lia.
  - cbn in Hrun. pose proof HI as (H1 & H2 & H3 & _).
    assert (Hstep : exists o self1, step N op self = Done o self1 /\
              Inv N self1 /\ start self <= start self1 /\
              end_ self <= end_ self1 /\ reserved self <= reserved self1).
    { destruct op as [v|]; cbn.
      - destruct (decide (reserved self = start self + N)) as [Hf|Hf].
        + rewrite try_insert_full by done. eexists _, self. split_and!; done || lia.
        + destruct (try_insert_room N v self HI Hf)
            as (self1 & -> & HI1 & _ & Hs & He & Hr & _).
          eexists _, self1. split_and!; done || lia.
      - destruct (decide (start self = end_ self)) as [He|He].
        + rewrite try_get_empty by done. eexists _, self. split_and!; done || lia.
        + destruct (try_get_nonempty N self HI He)
            as (x & xs & self1 & _ & _ & -> & HI1 & _ & Hs & He1 & Hr & _).
          eexists _, self1. split_and!; done || lia. }
    destruct Hstep as (o & self1 & Hs & HI1 & Ha & Hb & Hc).
    rewrite Hs in Hrun.
    destruct (run N ops self1) as [os1 self2| | |] eqn:Hr; try done.
    injection Hrun as _ <-.
    destruct (IH self1 os1 HI1 Hr) as (? & ? & ?). lia.
Qed.

(** X1: from a new buffer, every sequence of [try_insert]/[try_get] calls
    returns the same results as a bounded FIFO queue of capacity [N] run on
    the same calls, and the buffer then holds that queue's contents. *)
Theorem run_refines_bounded_fifo (ops : list (@Op T)) :
  exists self, run N ops (new N) = Done (fifo_run N ops []).1 self /\
    contents N self = (fifo_run N ops []).2.
Proof.
  destruct (run_refines ops (new N) (inv_new N)) as (self & Hrun & _ & Hc).
  exists self. split; done.
Qed.

(** X2: in a reachable state, [try_insert v] succeeds and appends [v] to the
    contents when fewer than [N] elements are held, and returns [Err v]
    leaving the state unchanged when [N] are held. *)
Theorem try_insert_refines (self : @RingBuffer T) (Hr : reachable N self) (v : T) :
  (length (contents N self) < N ->
     exists self', try_insert N v self = Done (Ok tt) self' /\
       contents N self' = contents N self ++ [v]) /\
  (length (contents N self) = N -> try_insert N v self = Done (Err v) self).
Proof.
  pose proof (reachable_inv N self Hr) as HI.
  pose proof (inv_full_iff self HI) as Hf.
  split; intros Hl.
  - destruct (try_insert_room N v self HI ltac:(intros E; apply Hf in E; lia))
      as (self' & Hins & _ & Hc & _). eauto.
  - apply try_insert_full. apply Hf. done.
Qed.

(** X3: in a reachable state, [try_get] returns [None] and leaves the state
    unchanged when the contents are empty, and otherwise returns the first
    element and leaves the rest as the contents. *)
Theorem try_get_refines (self : @RingBuffer T) (Hr : reachable N self) :
  match contents N self with
  | [] => try_get N self = Done None self
  | x :: xs => exists self', try_get N self = Done (Some x) self' /\
                 contents N self' = xs
  end.
Proof.
  pose proof (reachable_inv N self Hr) as HI.
  pose proof (contents_length N self HI) as Hl.
  destruct (decide (start self = end_ self)) as [He|He].
  - assert (contents N self = []) as -> by (apply length_zero_iff_nil; lia).
    apply try_get_empty. done.
  - destruct (try_get_nonempty N self HI He)
      as (x & xs & self' & -> & _ & Hget & _ & Hc & _). eauto.
Qed.

(** X4: in every reachable state all reserved slots are published
    ([end = reserved]), the number of held elements is [reserved - start]
    and at most [N], and the storage still has exactly [N] slots. *)
Theorem reachable_size (self : @RingBuffer T) (Hr : reachable N self) :
  end_ self = reserved self /\
  length (contents N self) = reserved self - start self /\
  length (contents N self) <= N /\
  length (data self) = N.
Proof.
  pose proof (reachable_inv N self Hr) as HI.
  pose proof (contents_length N self HI) as Hl.
  destruct HI as (H1 & H2 & H3 & H4 & _). split_and!; lia.
Qed.

(** X5: from a reachable state, any further sequence of calls never
    decreases any of the counters [start], [end] and [reserved]. *)
Theorem counters_monotone (self : @RingBuffer T) (Hr : reachable N self)
    (ops : list (@Op T)) (os : list (@Out T)) (self' : @RingBuffer T)
    (Hrun : run N ops self = Done os self') :
  start self <= start self' /\ end_ self <= end_ self' /\
  reserved self <= reserved self'.
Proof.
  exact (run_counters_mono ops self self' os (reachable_inv N self Hr) Hrun).
Qed.

(** X6: when [end] lags behind [reserved] (a slot reserved by another
    producer is not yet published) and the buffer is not full,
    [try_insert] reserves and writes its slot but then waits forever in the
    publish loop, since [end] never reaches its place on this thread. *)
Theorem try_insert_waits_for_publication (self : @RingBuffer T) (v : T)
    (HN : 0 < N) (Hlen : length (data self) = N)
    (Hroom : reserved self <> start self + N)
    (Hpend : end_ self <> reserved self) :
  try_insert N v self = Hang.
Proof.
  assert (Hlt : reserved self mod N < length (data self))
    by (rewrite Hlen; apply Nat.mod_upper_bound; lia).
  destruct (lookup_lt_is_Some_2 (data self) _ Hlt) as [c Hc].
  unfold try_insert, rem. rewrite decide_False by done.
  rewrite decide_False by lia. cbn. rewrite Hc.
  rewrite decide_False by done. reflexivity.
Qed.

End Extras.

(** X7: a buffer of capacity 0 is always full and always empty: from [new],
    every [try_insert v] returns [Err v], every [try_get] returns [None],
    the state never changes, and no remainder by zero is ever taken. *)
Theorem zero_capacity_run {T : Type} (ops : list (@Op T)) :
  run 0 ops (new 0) =
    Done (map (fun op => match op with
                         | Insert v => Inserted (Err v)
                         | Get => Got None
                         end) ops) (new 0).
Proof.
  induction ops as [|[v|] ops IH]; [done| |].
  - cbn [run step]. rewrite try_insert_full by reflexivity. rewrite IH. done.
  - cbn [run step]. rewrite try_get_empty by reflexivity. rewrite IH. done.
Qed.

(** * Witnesses of the further properties *)

Lemma try_insert_refines_witness :
  reachable 1 after_insert_5 /\
  ((length (contents 1 after_insert_5) < 1 ->
     exists self', try_insert 1 9 after_insert_5 = Done (Ok tt) self' /\
       contents 1 self' = contents 1 after_insert_5 ++ [9]) /\
   (length (contents 1 after_insert_5) = 1 ->
     try_insert 1 9 after_insert_5 = Done (Err 9) after_insert_5)).
Proof.
  split; [apply after_insert_5_reachable|].
  apply (try_insert_refines 1 after_insert_5 after_insert_5_reachable 9).
Defined.

Lemma try_get_refines_witness :
  reachable 1 after_insert_5 /\
  match contents 1 after_insert_5 with
  | [] => try_get 1 after_insert_5 = Done None after_insert_5
  | x :: xs => exists self', try_get 1 after_insert_5 = Done (Some x) self' /\
                 contents 1 self' = xs
  end.
Proof.
  split; [apply after_insert_5_reachable|].
  apply (try_get_refines 1 after_insert_5 after_insert_5_reachable).
Defined.

Lemma reachable_size_witness :
  reachable 1 after_insert_5 /\
  end_ after_insert_5 = reserved after_insert_5 /\
  length (contents 1 after_insert_5) =
    reserved after_insert_5 - start after_insert_5 /\
  length (contents 1 after_insert_5) <= 1 /\
  length (data after_insert_5) = 1.
Proof.
  split; [apply after_insert_5_reachable|].
  apply (reachable_size 1 after_insert_5 after_insert_5_reachable).
Defined.

Lemma counters_monotone_witness :
  reachable 1 after_insert_5 /\
  run 1 [Get; Insert 6] after_insert_5 =
    Done [Got (Some 5); Inserted (Ok tt)]
      {| start := 1; end_ := 2; reserved := 2; data := [Some 6] |} /\
  start after_insert_5 <= 1 /\ end_ after_insert_5 <= 2 /\
  reserved after_insert_5 <= 2.
Proof.
  split; [apply after_insert_5_reachable|].
  split; [reflexivity|].
  apply (counters_monotone 1 after_insert_5 after_insert_5_reachable
           [Get; Insert 6] [Got (Some 5); Inserted (Ok tt)]
           {| start := 1; end_ := 2; reserved := 2; data := [Some 6] |}).
  reflexivity.
Defined.

(** Slot 0 reserved by another producer and not yet published. *)
Definition pending_reservation : @RingBuffer nat :=
  {| start := 0; end_ := 0; reserved := 1; data := [None; None] |}.

Lemma try_insert_waits_for_publication_witness :
  0 < 2 /\ length (data pending_reservation) = 2 /\
  reserved pending_reservation <> start pending_reservation + 2 /\
  end_ pending_reservation <> reserved pending_reservation /\
  try_insert 2 3 pending_reservation = Hang.
Proof.
  split_and!; try (cbn; lia).
  apply (try_insert_waits_for_publication 2 pending_reservation 3); cbn; lia.
Defined.

Lemma fifo_run_order {T : Type} (N : nat) (ops : list (@Op T)) (q : list T) :
  q ++ accepted ops (fifo_run N ops q).1 =
    delivered (fifo_run N ops q).1 ++ (fifo_run N ops q).2.
Proof.
  revert q; induction ops as [|[v|] ops IH]; intros q; cbn.
  - rewrite !app_nil_r. done.
  - destruct (decide (length q < N)).
    + specialize (IH (q ++ [v])).
      destruct (fifo_run N ops (q ++ [v])) as [os q2]; cbn in *.
      rewrite <- IH, <- app_assoc. done.
    + specialize (IH q).
      destruct (fifo_run N ops q) as [os q2]; cbn in *. done.
  - destruct q as [|x q].
    + specialize (IH []).
      destruct (fifo_run N ops []) as [os q2]; cbn in *. done.
    + specialize (IH q).
      destruct (fifo_run N ops q) as [os q2]; cbn in *. rewrite IH. done.
Qed.

(** C4: for every capacity [N] and every sequence of [try_insert] and
    [try_get] calls on a new buffer, however many times the positions wrap
    around the [N] slots, the values returned by [try_get] are the values
    accepted by [try_insert] in insertion order, followed by the values
    still held; in particular, with capacity 4, inserting three values,
    removing three, inserting two more (the second at position 4, which
    wraps to slot 0) and removing two returns the values in insertion
    order. *)
Theorem fifo_order_wraparound {T : Type} (N : nat) (ops : list (@Op T)) :
  (exists os self, run N ops (new N) = Done os self /\
     accepted ops os = delivered os ++ contents N self) /\
  (forall a b c d e : T, exists self,
     run 4 [Insert a; Insert b; Insert c; Get; Get; Get;
            Insert d; Insert e; Get; Get] (new 4) =
     Done [Inserted (Ok tt); Inserted (Ok tt); Inserted (Ok tt);
           Got (Some a); Got (Some b); Got (Some c);
           Inserted (Ok tt); Inserted (Ok tt); Got (Some d); Got (Some e)] self).
Proof.
  split.
  - destruct (run_refines N ops (new N) (inv_new N)) as (self & Hrun & _ & Hc).
    exists (fifo_run N ops (contents N (new N))).1, self.
    split; [done|]. rewrite Hc.
    pose proof (fifo_run_order N ops (contents N (new N))) as Ho.
    assert (Hnil : contents N (@new T N) = []) by reflexivity.
    rewrite Hnil in Ho |- *. exact Ho.
  - intros a b c d e. eexists. vm_compute. reflexivity.
Qed.
